(** * react-notification-provider: the notification queue

    A shallow embedding of [src/index.tsx]: the two realizations of the
    [Queue<Notification>] interface ([createMockNotificationQueue], backed by
    one array mutated in place, and [useNotificationQueue], backed by a React
    state hook), the context accessor [useNotifications] and the two
    providers, followed by the properties of the queue contract. *)

From stdpp Require Import base option list strings gmap.

Open Scope Z_scope.

(** JavaScript arrays are modelled as lists; [array] is the type, so that the
    records below can keep the source's field name [list]. *)
Abbreviation array := Datatypes.list.

(** ** The JavaScript array methods used by the source

    Indices and counts are JavaScript numbers holding integers: [Z]. *)
Module Array.
Section Array.
Context {A : Type}.

(** [findIndex] scanning from index [k]: the index of the first element
    satisfying the callback, [-1] when there is none. *)
Fixpoint findIndex_from (callback : A → bool) (arr : array A) (k : Z) : Z :=
  match arr with
  | [] => -1
  | x :: arr' => if callback x then k else findIndex_from callback arr' (k + 1)
  end.

(** [arr.findIndex(callback)] *)
Definition findIndex (callback : A → bool) (arr : array A) : Z :=
  findIndex_from callback arr 0.

(** [arr.slice()]: a shallow copy. *)
Definition slice (arr : array A) : array A := arr.

(** [arr.splice(start, deleteCount, ...items)]: the contents of [arr]
    afterwards (the source discards the returned array of deleted
    elements). A negative [start] counts from the end; [start] and
    [deleteCount] are clamped as ECMAScript prescribes. *)
Definition splice (arr : array A) (start deleteCount : Z) (items : array A)
  : array A :=
  let len := Z.of_nat (length arr) in
  let actualStart :=
    if start <? 0 then Z.max (len + start) 0 else Z.min start len in
  let actualDeleteCount := Z.min (Z.max deleteCount 0) (len - actualStart) in
  take (Z.to_nat actualStart) arr ++ items
    ++ drop (Z.to_nat (actualStart + actualDeleteCount)) arr.

(** [arr.push(...items)]: the contents of [arr] afterwards. *)
Definition push (arr : array A) (items : array A) : array A := arr ++ items.

(** [arr.filter(callback)] *)
Definition filter (callback : A → bool) (arr : array A) : array A :=
  base.filter (λ x, Is_true (callback x)) arr.
End Array.
End Array.

(** [a === b] and [a !== b] on strings. *)
Definition strict_eq (a b : string) : bool := bool_decide (a = b).
Definition strict_ne (a b : string) : bool := negb (strict_eq a b).

(** ** [Queued<Notification>] *)
Module Queued.
Record t (Notification : Type) := mk { id : string; data : Notification }.
Arguments mk {_} _ _.
Arguments id {_} _.
Arguments data {_} _.
End Queued.
Abbreviation Queued := Queued.t.

(** ** The heap of arrays

    [createMockNotificationQueue] returns an object whose [list] property is
    the very array its methods mutate, so that array lives in a store and
    the object holds a reference to it. Arrays that never leave a method
    ([copy]) are plain values. *)
Definition loc := positive.

Module Heap.
Abbreviation Store Notification := (gmap loc (array (Queued Notification))).

Section Heap.
Context {Notification : Type}.

(** Computations on the store; [None] is a reference to an array that was
    never allocated. *)
Definition M (A : Type) : Type :=
  Store Notification → option (A * Store Notification).

#[global] Instance M_ret : MRet M := λ A x σ, Some (x, σ).

#[global] Instance M_bind : MBind M := λ A B k m σ,
  match m σ with
  | Some (x, σ') => k x σ'
  | None => None
  end.

(** [[...]]: a new array. *)
Definition alloc (arr : array (Queued Notification)) : M loc :=
  λ σ, let a := fresh (dom σ) in Some (a, <[a := arr]> σ).

Definition load (a : loc) : M (array (Queued Notification)) :=
  λ σ, match σ !! a with
       | Some arr => Some (arr, σ)
       | None => None
       end.

Definition store (a : loc) (arr : array (Queued Notification)) : M () :=
  λ σ, match σ !! a with
       | Some _ => Some ((), <[a := arr]> σ)
       | None => None
       end.
End Heap.
End Heap.

(** ** [createMockNotificationQueue] *)
Module Mock.
Section Mock.
Context {Notification : Type}.

Abbreviation M := (@Heap.M Notification).

(** The returned object: [add], [remove] and [removeAll] close over the
    variable [list], and the property [list] holds the same reference. *)
Record Queue := { list : loc }.

(** Methods of the array behind a reference. *)
Definition findIndex (a : loc) (callback : Queued Notification → bool) : M Z :=
  arr ← Heap.load a; mret (Array.findIndex callback arr).
Definition slice (a : loc) : M (array (Queued Notification)) :=
  arr ← Heap.load a; mret (Array.slice arr).
Definition length (a : loc) : M Z :=
  arr ← Heap.load a; mret (Z.of_nat (Datatypes.length arr)).
Definition splice (a : loc) (start deleteCount : Z)
    (items : array (Queued Notification)) : M () :=
  arr ← Heap.load a; Heap.store a (Array.splice arr start deleteCount items).
Definition push (a : loc) (items : array (Queued Notification)) : M () :=
  arr ← Heap.load a; Heap.store a (Array.push arr items).
Definition filter (a : loc) (callback : Queued Notification → bool)
  : M (array (Queued Notification)) :=
  arr ← Heap.load a; mret (Array.filter callback arr).

Definition createMockNotificationQueue : M Queue :=
  list ← Heap.alloc []; mret {| list := list |}.

Definition add (q : Queue) (id : string) (notification : Notification) : M () :=
  matchIndex ← findIndex (list q) (λ n, strict_eq (Queued.id n) id);
  copy ← slice (list q);
  let copy :=
    if matchIndex >? -1
    then Array.splice copy matchIndex 1 [Queued.mk id notification]
    else Array.push copy [Queued.mk id notification] in
  len ← length (list q);
  splice (list q) 0 len [];;
  push (list q) copy.

Definition remove (q : Queue) (id : string) : M () :=
  copy ← filter (list q) (λ n, strict_ne (Queued.id n) id);
  len ← length (list q);
  splice (list q) 0 len [];;
  push (list q) copy.

Definition removeAll (q : Queue) : M () :=
  len ← length (list q);
  splice (list q) 0 len [].

(** Reading [queue.list]: the current contents of the referenced array. *)
Definition read_list (q : Queue) : M (array (Queued Notification)) :=
  Heap.load (list q).
End Mock.
End Mock.

(** ** React's state hook

    [useState] as React defines it: a hook cell keeps the state committed by
    the last render and the queue of updates dispatched since; the next
    render folds the queued actions, in dispatch order, into the state. *)
Module React.
Section React.
Context {S : Type}.

(** [SetStateAction<S>]: a new state, or a function of the previous one. *)
Inductive SetStateAction :=
| Value (state : S)
| Updater (f : S → S).

Record Hook := { memoizedState : S; pending : array SetStateAction }.

Definition basicStateReducer (state : S) (action : SetStateAction) : S :=
  match action with
  | Value state' => state'
  | Updater f => f state
  end.

(** The setter returned by [useState]: enqueue the action. *)
Definition dispatchSetState (action : SetStateAction) (h : Hook) : Hook :=
  {| memoizedState := memoizedState h; pending := pending h ++ [action] |}.

(** [useState(initialState)] during a render: [None] is the first render
    of the component, [Some h] a later one. *)
Definition useState (initialState : S) (h : option Hook) : S * Hook :=
  match h with
  | None => (initialState, {| memoizedState := initialState; pending := [] |})
  | Some h =>
      let state := foldl basicStateReducer (memoizedState h) (pending h) in
      (state, {| memoizedState := state; pending := [] |})
  end.
End React.
Arguments SetStateAction : clear implicits.
Arguments Hook : clear implicits.
End React.

(** ** [useNotificationQueue] *)
Module Live.
Abbreviation Hook Notification := (React.Hook (array (Queued Notification))).

Section Live.
Context {Notification : Type}.

(** The object returned by one render: [list] is the state as of that
    render; [add], [remove] and [removeAll] close over [setQueue] only. *)
Record Queue := { list : array (Queued Notification) }.

Definition setQueue
  : React.SetStateAction (array (Queued Notification))
    → Hook Notification → Hook Notification :=
  React.dispatchSetState.

Definition useNotificationQueue (h : option (Hook Notification))
  : Queue * Hook Notification :=
  let '(queue, h') := React.useState [] h in
  ({| list := queue |}, h').

Definition add (id : string) (notification : Notification)
  : Hook Notification → Hook Notification :=
  setQueue (React.Updater (λ queue,
    let matchIndex :=
      Array.findIndex (λ n, strict_eq (Queued.id n) id) queue in
    let copy := Array.slice queue in
    if matchIndex >? -1
    then Array.splice copy matchIndex 1 [Queued.mk id notification]
    else Array.push copy [Queued.mk id notification])).

Definition remove (id : string) : Hook Notification → Hook Notification :=
  setQueue (React.Updater (λ queue,
    Array.filter (λ n, strict_ne (Queued.id n) id) queue)).

Definition removeAll : Hook Notification → Hook Notification :=
  setQueue (React.Value []).
End Live.
End Live.

(** ** The context: [useNotifications] and the providers *)
Module Context.
Section Context.
Context {Notification : Type}.

(** A value of the interface [Queue<Notification>]. *)
Inductive Queue :=
| LiveQueue (queue : @Live.Queue Notification)
| MockQueue (queue : Mock.Queue).

(** [Queue<Notification> | null] *)
Inductive Value :=
| null
| object (queue : Queue).

(** The values of the [NotificationQueueContext.Provider] elements
    enclosing a component, innermost first. *)
Definition Scope := array Value.

Record Error := { message : string }.

Inductive Completion (A : Type) :=
| Normal (value : A)
| Throw (error : Error).
Arguments Normal {_} _.
Arguments Throw {_} _.

(** An element yielding an [R] when rendered in a scope. *)
Definition Element (R : Type) : Type := Scope → @Heap.M Notification R.

(** [createContext<Queue<Notification> | null>(null)] and [useContext]:
    the value of the nearest enclosing provider, else the default. *)
Definition defaultValue : Value := null.

Definition useContext (scope : Scope) : Value :=
  match scope with
  | value :: _ => value
  | [] => defaultValue
  end.

(** [<NotificationQueueContext.Provider value={value}>] *)
Definition Provider {R} (value : Value) (children : Element R) : Element R :=
  λ scope, children (value :: scope).

(** [!queue]: [null] is falsy, every object is truthy. *)
Definition not (queue : Value) : bool :=
  match queue with
  | null => true
  | object _ => false
  end.

(** After the test [!queue] the type of [queue] is narrowed to
    [Queue<Notification>]: the [null] case of the second match is the
    one the test has already taken. *)
Definition useNotifications (scope : Scope) : Completion Queue :=
  let queue := useContext scope in
  if not queue
  then Throw {| message := "Missing <NotificationQueueProvider>" |}
  else match queue with
       | object queue => Normal queue
       | null => Throw {| message := "Missing <NotificationQueueProvider>" |}
       end.

Definition NotificationQueueProvider {R} (queue : Queue)
    (children : Element R) : Element R :=
  Provider (object queue) children.

(** The optional property [queue] is [None] when left out. *)
Definition MockNotificationQueueProvider {R} (queue : option Queue)
    (children : Element R) : Element R :=
  λ scope,
    value ← match queue with
            | Some queue => mret queue
            | None =>
                queue ← Mock.createMockNotificationQueue;
                mret (MockQueue queue)
            end;
    Provider (object value) children scope.
End Context.
Arguments Normal {_} _.
Arguments Throw {_} _.
End Context.

(** ** Clients of a queue

    A client is a finite sequence of calls of the three mutating methods;
    for the live queue, renders of the owning component may come between
    the calls. *)
Section Client.
Context {Notification : Type}.

Inductive Call :=
| Add (id : string) (notification : Notification)
| Remove (id : string)
| RemoveAll.

Definition mock_call (q : Mock.Queue) (c : Call) : @Heap.M Notification () :=
  match c with
  | Add id notification => Mock.add q id notification
  | Remove id => Mock.remove q id
  | RemoveAll => Mock.removeAll q
  end.

Fixpoint mock_calls (q : Mock.Queue) (cs : array Call)
  : @Heap.M Notification () :=
  match cs with
  | [] => mret ()
  | c :: cs' => mock_call q c;; mock_calls q cs'
  end.

(** [const queue = createMockNotificationQueue(); ...calls...; queue.list] *)
Definition mock_session (cs : array Call)
  : @Heap.M Notification (array (Queued Notification)) :=
  q ← Mock.createMockNotificationQueue;
  mock_calls q cs;;
  Mock.read_list q.

Definition live_call (c : Call)
  : Live.Hook Notification → Live.Hook Notification :=
  match c with
  | Add id notification => Live.add id notification
  | Remove id => Live.remove id
  | RemoveAll => Live.removeAll
  end.

Inductive Event :=
| Invoke (c : Call)
| Render.

Definition live_event (h : Live.Hook Notification) (e : Event)
  : Live.Hook Notification :=
  match e with
  | Invoke c => live_call c h
  | Render => (Live.useNotificationQueue (Some h)).2
  end.

(** [list] as the next render of the component returns it. *)
Definition rendered_list (h : Live.Hook Notification)
  : array (Queued Notification) :=
  Live.list (Live.useNotificationQueue (Some h)).1.

(** The component mounts, the events happen, the component renders and
    [list] is read from what [useNotificationQueue] returns. *)
Definition live_session (es : array Event) : array (Queued Notification) :=
  rendered_list (foldl live_event (Live.useNotificationQueue None).2 es).

Definition calls_of (es : array Event) : array Call :=
  omap (λ e, match e with Invoke c => Some c | Render => None end) es.

(** At most one entry per id. *)
Definition unique_ids (l : array (Queued Notification)) : Prop :=
  NoDup (Queued.id <$> l).

(** What a call does to the contents of the queue: the bodies of the
    updaters that [Live.add] and [Live.remove] pass to [setQueue], and the
    value that [Live.removeAll] passes. *)
Definition upsert (id : string) (notification : Notification)
    (queue : array (Queued Notification)) : array (Queued Notification) :=
  let matchIndex :=
    Array.findIndex (λ n, strict_eq (Queued.id n) id) queue in
  let copy := Array.slice queue in
  if matchIndex >? -1
  then Array.splice copy matchIndex 1 [Queued.mk id notification]
  else Array.push copy [Queued.mk id notification].

Definition without (id : string) (queue : array (Queued Notification))
  : array (Queued Notification) :=
  Array.filter (λ n, strict_ne (Queued.id n) id) queue.

Definition contents_after (l : array (Queued Notification)) (c : Call)
  : array (Queued Notification) :=
  match c with
  | Add id notification => upsert id notification l
  | Remove id => without id l
  | RemoveAll => []
  end.

(** [queue.list] of a mock queue, read in the store [σ] and read after
    running [m] from [σ]; [None] if the run gets stuck. *)
Definition mock_list (q : Mock.Queue) (σ : Heap.Store Notification)
  : option (array (Queued Notification)) :=
  fst <$> Mock.read_list q σ.

Definition mock_list_after (m : @Heap.M Notification ()) (q : Mock.Queue)
    (σ : Heap.Store Notification) : option (array (Queued Notification)) :=
  fst <$> (m;; Mock.read_list q) σ.

(** In both realizations, a queue that shows [l] shows [l'] after the
    call [c]: the mock queue when [queue.list] is read next, the live
    queue when the component renders next. *)
Definition call_yields (l : array (Queued Notification)) (c : Call)
    (l' : array (Queued Notification)) : Prop :=
  (∀ q σ, mock_list q σ = Some l →
          mock_list_after (mock_call q c) q σ = Some l')
  ∧ (∀ h, rendered_list h = l → rendered_list (live_call c h) = l').

(** In both realizations, a new queue shows [l] after the calls [cs]. *)
Definition session_yields (cs : array Call)
    (l : array (Queued Notification)) : Prop :=
  (∀ σ, fst <$> mock_session cs σ = Some l)
  ∧ (∀ es, calls_of es = cs → live_session es = l).
End Client.


(** ** A concrete queue, for examples

    The list [[{id: "a", data: 1}, {id: "b", data: 2}]], held by a mock
    queue whose array is at address 1 and by a live queue whose hook has
    committed it. *)
Definition example_list : array (Queued nat) :=
  [Queued.mk "a" 1%nat; Queued.mk "b" 2%nat].
Definition example_queue : Mock.Queue := {| Mock.list := 1%positive |}.
Definition example_store : Heap.Store nat := {[1%positive := example_list]}.
Definition example_hook : Live.Hook nat :=
  {| React.memoizedState := example_list; React.pending := [] |}.

(** ** Sequences of calls *)
Section Sequences.
Context {Notification : Type}.

(** In both realizations, a queue that shows [l] shows [l'] after the calls
    [cs], whatever renders of the live component come between them. *)
Definition calls_yield (l : array (Queued Notification)) (cs : array Call)
    (l' : array (Queued Notification)) : Prop :=
  (∀ q σ, mock_list q σ = Some l →
          mock_list_after (mock_calls q cs) q σ = Some l')
  ∧ (∀ h es, rendered_list h = l → calls_of es = cs →
             rendered_list (foldl live_event h es) = l').

(** On a queue that shows [l], the two sequences of calls leave the same
    list, in both realizations. *)
Definition same_effect (l : array (Queued Notification))
    (cs cs' : array (@Call Notification)) : Prop :=
  ∃ l', calls_yield l cs l' ∧ calls_yield l cs' l'.
End Sequences.

(** ** [createNotificationContext]

    Each call creates its own context object with [createContext(null)] and
    returns the providers and the hook bound to it. React tells context
    objects apart by identity, and [useContext(context)] reads the nearest
    enclosing provider of that very context. *)
Module Factory.
Section Factory.
Context {Notification : Type}.

(** The identity of a context object. *)
Definition ContextObject := nat.

(** The providers enclosing a component, innermost first, each with the
    context object it belongs to. *)
Definition Scope := array (ContextObject * @Context.Value Notification).

Definition Element (R : Type) : Type := Scope → @Heap.M Notification R.

(** The values of the enclosing providers of [context], innermost first. *)
Definition providers_of (context : ContextObject) (scope : Scope)
  : @Context.Scope Notification :=
  omap (λ p, if decide (p.1 = context) then Some p.2 else None) scope.

(** [<context.Provider value={value}>] *)
Definition Provider {R} (context : ContextObject) (value : Context.Value)
    (children : Element R) : Element R :=
  λ scope, children ((context, value) :: scope).

(** [createContext(null)]: [created] counts the context objects made so
    far, and the new one is told apart from all of them. *)
Definition createContext (created : nat) : ContextObject * nat :=
  (created, S created).

(** What [createNotificationContext] returns: the context object, to which
    the two providers and [useNotifications] below are bound. The other two
    members, [useNotificationQueue] and [createMockNotificationQueue], do
    not use the context: they are [Live.useNotificationQueue] and
    [Mock.createMockNotificationQueue]. *)
Record NotificationContext := { NotificationQueueContext : ContextObject }.

Definition createNotificationContext (created : nat)
  : NotificationContext * nat :=
  let '(context, created') := createContext created in
  ({| NotificationQueueContext := context |}, created').

Definition useNotifications (self : NotificationContext) (scope : Scope)
  : Context.Completion Context.Queue :=
  Context.useNotifications (providers_of (NotificationQueueContext self) scope).

Definition NotificationQueueProvider {R} (self : NotificationContext)
    (queue : Context.Queue) (children : Element R) : Element R :=
  Provider (NotificationQueueContext self) (Context.object queue) children.

Definition MockNotificationQueueProvider {R} (self : NotificationContext)
    (queue : option Context.Queue) (children : Element R) : Element R :=
  λ scope,
    value ← match queue with
            | Some queue => mret queue
            | None =>
                queue ← Mock.createMockNotificationQueue;
                mret (Context.MockQueue queue)
            end;
    Provider (NotificationQueueContext self) (Context.object value)
      children scope.
End Factory.
End Factory.

(** A list with two entries of id ["a"], as a caller writing to
    [queue.list] directly could leave it. *)
Definition example_duplicates : array (Queued nat) :=
  [Queued.mk "b" 2%nat; Queued.mk "a" 1%nat; Queued.mk "a" 5%nat].

(** * Properties *)

(** ** Array methods *)
Section ArrayFacts.
Context {A : Type}.
Implicit Types (arr : array A) (callback : A → bool).

Lemma findIndex_from_find callback arr k :
  Array.findIndex_from callback arr k =
    match list_find (λ x, Is_true (callback x)) arr with
    | Some (j, _) => k + Z.of_nat j
    | None => -1
    end.
Proof.
  revert k. induction arr as [|x arr IH]; intros k; [done|].
  cbn [Array.findIndex_from list_find]. destruct (callback x) eqn:Hx.
  - rewrite decide_True by done. cbn. lia.
  - rewrite decide_False by (intros []).
    rewrite IH. destruct (list_find _ arr) as [[j y]|]; cbn; lia.
Qed.

Lemma findIndex_first callback arr k x :
  list_find (λ x, Is_true (callback x)) arr = Some (k, x) →
  Array.findIndex callback arr = Z.of_nat k.
Proof.
  intros H. unfold Array.findIndex. rewrite findIndex_from_find, H. lia.
Qed.

Lemma findIndex_none callback arr :
  Forall (λ x, ¬ callback x) arr → Array.findIndex callback arr = -1.
Proof.
  intros H. unfold Array.findIndex. rewrite findIndex_from_find.
  by rewrite (proj2 (list_find_None (λ x, Is_true (callback x)) arr) H).
Qed.

Lemma splice_replace arr (k : nat) x :
  (k < length arr)%nat →
  Array.splice arr (Z.of_nat k) 1 [x] = <[k:=x]> arr.
Proof.
  intros Hk. unfold Array.splice.
  rewrite (proj2 (Z.ltb_ge _ _)) by lia.
  rewrite Z.min_l, Z.min_l, Nat2Z.id by lia.
  replace (Z.to_nat (Z.of_nat k + Z.max 1 0)) with (S k) by lia.
  by rewrite insert_take_drop.
Qed.

Lemma splice_clear arr :
  Array.splice arr 0 (Z.of_nat (length arr)) [] = [].
Proof.
  unfold Array.splice. cbn [Z.ltb Z.compare].
  rewrite Z.min_l by lia. cbn [Z.to_nat take app].
  rewrite Z.min_r by lia.
  apply drop_ge. lia.
Qed.

Lemma filter_all callback arr :
  Forall (λ x, callback x) arr → Array.filter callback arr = arr.
Proof.
  unfold Array.filter. induction 1 as [|x arr Hx _ IH]; [done|].
  rewrite filter_cons_True by done. by rewrite IH.
Qed.
End ArrayFacts.

(** ** What the calls do to the contents *)
Section Contents.
Context {Notification : Type}.
Implicit Types (l : array (Queued Notification)) (e : Queued Notification).
Implicit Types (i : string) (d : Notification) (k : nat).

Lemma strict_eq_spec (a b : string) : strict_eq a b ↔ a = b.
Proof. unfold strict_eq. apply bool_decide_spec. Qed.

Lemma strict_ne_spec (a b : string) : strict_ne a b ↔ a ≠ b.
Proof.
  unfold strict_ne. rewrite <- strict_eq_spec.
  destruct (strict_eq a b); cbn; tauto.
Qed.

Lemma upsert_absent i d l :
  i ∉ Queued.id <$> l → upsert i d l = l ++ [Queued.mk i d].
Proof.
  intros Hi. unfold upsert. rewrite findIndex_none; [done|].
  apply Forall_forall. intros e He Heq%strict_eq_spec.
  apply Hi. rewrite <- Heq. by apply list_elem_of_fmap_2.
Qed.

Lemma upsert_first i d l k e :
  l !! k = Some e → Queued.id e = i →
  (∀ j y, l !! j = Some y → (j < k)%nat → Queued.id y ≠ i) →
  upsert i d l = <[k:=Queued.mk i d]> l.
Proof.
  intros Hk He Hfirst. unfold upsert, Array.slice.
  rewrite (findIndex_first _ l k e).
  - rewrite (proj2 (Z.gtb_lt _ _)) by lia.
    apply splice_replace. by eapply lookup_lt_Some.
  - apply list_find_Some. split_and!; [done|by apply strict_eq_spec|].
    intros j y Hj Hlt Hy%strict_eq_spec. by eapply Hfirst.
Qed.

Lemma unique_ids_lookup l j k x y :
  unique_ids l → l !! j = Some x → l !! k = Some y →
  Queued.id x = Queued.id y → j = k.
Proof.
  intros Hl Hj Hk Hxy.
  apply (NoDup_lookup (Queued.id <$> l) j k (Queued.id x)); [done|..].
  - by rewrite list_lookup_fmap, Hj.
  - by rewrite list_lookup_fmap, Hk, Hxy.
Qed.

Lemma upsert_present i d l k e :
  unique_ids l → l !! k = Some e → Queued.id e = i →
  upsert i d l = <[k:=Queued.mk i d]> l.
Proof.
  intros Hl Hk He. apply (upsert_first i d l k e); [done..|].
  intros j y Hj Hlt Hy.
  assert (j = k) by (eapply unique_ids_lookup; [done..|congruence]). lia.
Qed.

Lemma ids_replace i d l k e :
  l !! k = Some e → Queued.id e = i →
  Queued.id <$> <[k:=Queued.mk i d]> l = Queued.id <$> l.
Proof.
  intros Hk He. rewrite list_fmap_insert. apply list_insert_id.
  by rewrite list_lookup_fmap, Hk, <- He.
Qed.

Lemma id_present i l :
  i ∈ Queued.id <$> l → ∃ k e, l !! k = Some e ∧ Queued.id e = i.
Proof.
  intros (e & -> & [k Hk]%list_elem_of_lookup)%list_elem_of_fmap. eauto.
Qed.

Lemma upsert_unique i d l : unique_ids l → unique_ids (upsert i d l).
Proof.
  intros Hl. destruct (decide (i ∈ Queued.id <$> l)) as [Hin|Hnot].
  - destruct (id_present _ _ Hin) as (k & e & Hk & He).
    rewrite (upsert_present i d l k e) by done.
    unfold unique_ids. by rewrite (ids_replace i d l k e).
  - rewrite upsert_absent by done. unfold unique_ids.
    rewrite fmap_app. apply NoDup_app. split_and!; [done| |apply NoDup_singleton].
    intros x Hx ->%list_elem_of_singleton. done.
Qed.

Lemma without_absent i l : i ∉ Queued.id <$> l → without i l = l.
Proof.
  intros Hi. apply filter_all, Forall_forall.
  intros e He. apply strict_ne_spec. intros <-.
  apply Hi. by apply list_elem_of_fmap_2.
Qed.

Lemma without_present i l k e :
  unique_ids l → l !! k = Some e → Queued.id e = i →
  without i l = delete k l.
Proof.
  intros Hl Hk He. rewrite delete_take_drop.
  rewrite <- (take_drop_middle l k e Hk) at 1.
  unfold without, Array.filter. rewrite filter_app, filter_cons_False.
  2:{ intros H%strict_ne_spec. done. }
  f_equal; apply (filter_all (λ n, strict_ne (Queued.id n) i)), Forall_forall;
    intros y [j Hj]%list_elem_of_lookup; apply strict_ne_spec; intros Hy.
  - apply lookup_take_Some in Hj as [Hj Hlt].
    assert (j = k) by (eapply unique_ids_lookup; [done..|congruence]). lia.
  - rewrite lookup_drop in Hj.
    assert (S k + j = k)%nat by (eapply unique_ids_lookup; [done..|congruence]).
    lia.
Qed.

Lemma without_unique i l : unique_ids l → unique_ids (without i l).
Proof.
  unfold unique_ids, without, Array.filter. intros Hl.
  eapply sublist_NoDup; [exact Hl|].
  apply fmap_sublist, sublist_filter.
Qed.

Lemma without_gone i l : i ∉ Queued.id <$> without i l.
Proof.
  intros (e & -> & He)%list_elem_of_fmap.
  apply list_elem_of_filter in He as [He%strict_ne_spec _]. done.
Qed.

Lemma contents_after_unique l (c : @Call Notification) :
  unique_ids l → unique_ids (contents_after l c).
Proof.
  destruct c; cbn; auto using upsert_unique, without_unique.
  intros _. apply NoDup_nil_2.
Qed.

Lemma contents_unique (cs : array (@Call Notification)) :
  unique_ids (foldl contents_after [] cs).
Proof.
  assert (∀ l, unique_ids l → unique_ids (foldl contents_after l cs)) as H.
  { induction cs as [|c cs IH]; intros l Hl; [done|].
    cbn. by apply IH, contents_after_unique. }
  apply H, NoDup_nil_2.
Qed.
End Contents.

(** ** The mock queue: every call rewrites the referenced array in place *)
Section MockFacts.
Context {Notification : Type}.
Implicit Types (σ : Heap.Store Notification) (q : Mock.Queue).
Implicit Types (l : array (Queued Notification)).

Lemma mock_read_list q σ l :
  Mock.read_list q σ = Some (l, σ) ↔ σ !! Mock.list q = Some l.
Proof.
  unfold Mock.read_list, Heap.load.
  destruct (σ !! Mock.list q); naive_solver.
Qed.

Lemma bind_run {A B} (m : Heap.M A) (k : A → Heap.M B) σ :
  (m ≫= k) σ = match m σ with Some (x, σ') => k x σ' | None => None end.
Proof. done. Qed.

Lemma load_run a σ l : σ !! a = Some l → Heap.load a σ = Some (l, σ).
Proof. intros Hl. unfold Heap.load. by rewrite Hl. Qed.

Lemma store_run a σ l l' :
  σ !! a = Some l → Heap.store a l' σ = Some ((), <[a:=l']> σ).
Proof. intros Hl. unfold Heap.store. by rewrite Hl. Qed.

Lemma findIndex_run a callback σ l :
  σ !! a = Some l →
  Mock.findIndex a callback σ = Some (Array.findIndex callback l, σ).
Proof.
  intros Hl. unfold Mock.findIndex. by rewrite bind_run, (load_run a σ l).
Qed.

Lemma slice_run a σ l :
  σ !! a = Some l → Mock.slice a σ = Some (Array.slice l, σ).
Proof. intros Hl. unfold Mock.slice. by rewrite bind_run, (load_run a σ l). Qed.

Lemma length_run a σ l :
  σ !! a = Some l → Mock.length a σ = Some (Z.of_nat (length l), σ).
Proof. intros Hl. unfold Mock.length. by rewrite bind_run, (load_run a σ l). Qed.

Lemma filter_run a callback σ l :
  σ !! a = Some l →
  Mock.filter a callback σ = Some (Array.filter callback l, σ).
Proof.
  intros Hl. unfold Mock.filter. by rewrite bind_run, (load_run a σ l).
Qed.

Lemma splice_run a start deleteCount items σ l :
  σ !! a = Some l →
  Mock.splice a start deleteCount items σ
  = Some ((), <[a:=Array.splice l start deleteCount items]> σ).
Proof.
  intros Hl. unfold Mock.splice. rewrite bind_run, (load_run a σ l) by done.
  by apply store_run with l.
Qed.

Lemma push_run a items σ l :
  σ !! a = Some l →
  Mock.push a items σ = Some ((), <[a:=Array.push l items]> σ).
Proof.
  intros Hl. unfold Mock.push. rewrite bind_run, (load_run a σ l) by done.
  by apply store_run with l.
Qed.

(** [list.splice(0, list.length); list.push(...copy)] leaves [copy] in
    the array that [list] refers to. *)
Lemma mock_replace q σ l l' :
  σ !! Mock.list q = Some l →
  (len ← Mock.length (Mock.list q);
   Mock.splice (Mock.list q) 0 len [];;
   Mock.push (Mock.list q) l') σ
  = Some ((), <[Mock.list q := l']> σ).
Proof.
  intros Hl.
  rewrite bind_run, (length_run _ σ l) by done.
  rewrite bind_run, (splice_run _ _ _ _ σ l), splice_clear by done.
  rewrite (push_run _ _ _ []) by apply lookup_insert_eq.
  by rewrite insert_insert_eq.
Qed.

Lemma mock_add_run q i d σ l :
  σ !! Mock.list q = Some l →
  Mock.add q i d σ = Some ((), <[Mock.list q := upsert i d l]> σ).
Proof.
  intros Hl. unfold Mock.add.
  rewrite bind_run, (findIndex_run _ _ σ l) by done.
  rewrite bind_run, (slice_run _ σ l) by done.
  by apply mock_replace with l.
Qed.

Lemma mock_remove_run q i σ l :
  σ !! Mock.list q = Some l →
  Mock.remove q i σ = Some ((), <[Mock.list q := without i l]> σ).
Proof.
  intros Hl. unfold Mock.remove.
  rewrite bind_run, (filter_run _ _ σ l) by done.
  by apply mock_replace with l.
Qed.

Lemma mock_removeAll_run q σ l :
  σ !! Mock.list q = Some l →
  Mock.removeAll q σ = Some ((), <[Mock.list q := []]> σ).
Proof.
  intros Hl. unfold Mock.removeAll.
  rewrite bind_run, (length_run _ σ l) by done.
  by rewrite (splice_run _ _ _ _ σ l), splice_clear.
Qed.

Lemma mock_call_run q (c : @Call Notification) σ l :
  σ !! Mock.list q = Some l →
  mock_call q c σ = Some ((), <[Mock.list q := contents_after l c]> σ).
Proof.
  destruct c; cbn;
    eauto using mock_add_run, mock_remove_run, mock_removeAll_run.
Qed.

Lemma mock_calls_run q (cs : array (@Call Notification)) σ l :
  σ !! Mock.list q = Some l →
  mock_calls q cs σ
  = Some ((), <[Mock.list q := foldl contents_after l cs]> σ).
Proof.
  revert σ l. induction cs as [|c cs IH]; intros σ l Hl.
  - cbn. by rewrite insert_id.
  - cbn [mock_calls foldl]. rewrite bind_run, (mock_call_run q c σ l Hl).
    rewrite (IH _ (contents_after l c)) by apply lookup_insert_eq.
    by rewrite insert_insert_eq.
Qed.

Lemma mock_create_run σ :
  ∃ q, Mock.createMockNotificationQueue σ
         = Some (q, <[Mock.list q := []]> σ)
       ∧ σ !! Mock.list q = None.
Proof.
  exists {| Mock.list := fresh (dom σ) |}. split; [done|].
  apply not_elem_of_dom, is_fresh.
Qed.

Lemma mock_session_run (cs : array (@Call Notification)) σ :
  ∃ σ', mock_session cs σ = Some (foldl contents_after [] cs, σ').
Proof.
  destruct (mock_create_run σ) as (q & Hq & _).
  unfold mock_session. rewrite bind_run, Hq.
  rewrite bind_run, (mock_calls_run q cs _ []) by apply lookup_insert_eq.
  eexists. apply mock_read_list. apply lookup_insert_eq.
Qed.
End MockFacts.

(** ** The live queue: every call queues an update for the next render *)
Section LiveFacts.
Context {Notification : Type}.
Implicit Types (h : Live.Hook Notification).

Lemma rendered_list_call h (c : @Call Notification) :
  rendered_list (live_call c h) = contents_after (rendered_list h) c.
Proof.
  destruct c; cbn; unfold rendered_list; cbn; by rewrite foldl_app.
Qed.

Lemma rendered_list_render h :
  rendered_list (live_event h Render) = rendered_list h.
Proof. done. Qed.

Lemma rendered_list_events h (es : array (@Event Notification)) :
  rendered_list (foldl live_event h es)
  = foldl contents_after (rendered_list h) (calls_of es).
Proof.
  revert h. induction es as [|[c|] es IH]; intros h; [done|..].
  - cbn [foldl calls_of omap]. rewrite IH. cbn [live_event].
    by rewrite rendered_list_call.
  - cbn [foldl calls_of omap]. by rewrite IH, rendered_list_render.
Qed.

Lemma live_session_run (es : array (@Event Notification)) :
  live_session es = foldl contents_after [] (calls_of es).
Proof. unfold live_session. by rewrite rendered_list_events. Qed.
End LiveFacts.

(** ** Both realizations follow [contents_after] *)
Section Yields.
Context {Notification : Type}.
Implicit Types (l : array (Queued Notification)).

Lemma mock_list_Some q σ l :
  mock_list q σ = Some l ↔ σ !! Mock.list q = Some l.
Proof.
  unfold mock_list, Mock.read_list, Heap.load.
  destruct (σ !! Mock.list q); cbn; naive_solver.
Qed.

Lemma call_yields_contents l (c : @Call Notification) :
  call_yields l c (contents_after l c).
Proof.
  split.
  - intros q σ Hl%mock_list_Some. unfold mock_list_after.
    rewrite bind_run, (mock_call_run q c σ l Hl).
    apply mock_list_Some, lookup_insert_eq.
  - intros h <-. apply rendered_list_call.
Qed.

Lemma session_yields_contents (cs : array (@Call Notification)) :
  session_yields cs (foldl contents_after [] cs).
Proof.
  split.
  - intros σ. destruct (mock_session_run cs σ) as [σ' ->]. done.
  - intros es <-. apply live_session_run.
Qed.
End Yields.

(** * The queue contract *)
Section Contract.
Context {Notification : Type}.
Implicit Types (l : array (Queued Notification)) (e : Queued Notification).
Implicit Types (i : string) (d : Notification) (k : nat).
Implicit Types (c : @Call Notification) (cs : array (@Call Notification)).
Implicit Types (es : array (@Event Notification)).

(** C1. Every state reached from a new queue by a finite sequence of
    [add], [remove] and [removeAll] calls holds at most one entry per id,
    in the mock queue and in the live queue (whatever renders come
    between the calls); and each of the three calls, made on a queue with
    at most one entry per id, leaves at most one entry per id. *)
Theorem unique_ids_invariant :
  (∀ cs σ, ∃ l, fst <$> mock_session cs σ = Some l ∧ unique_ids l)
  ∧ (∀ es, unique_ids (live_session es))
  ∧ (∀ q σ l c, mock_list q σ = Some l → unique_ids l →
       ∃ l', mock_list_after (mock_call q c) q σ = Some l' ∧ unique_ids l')
  ∧ (∀ h c, unique_ids (rendered_list h) →
       unique_ids (rendered_list (live_call c h))).
Proof.
  split_and!.
  - intros cs σ. exists (foldl contents_after [] cs). split.
    + apply session_yields_contents.
    + apply contents_unique.
  - intros es. rewrite live_session_run. apply contents_unique.
  - intros q σ l c Hl Hu. exists (contents_after l c). split.
    + by apply call_yields_contents.
    + by apply contents_after_unique.
  - intros h c Hu. rewrite rendered_list_call.
    by apply contents_after_unique.
Qed.

(** C2. On a queue (at most one entry per id) holding an entry with id
    [i] at position [k], [add(i, d)] puts [{id: i, data: d}] at position
    [k] and leaves every other position and the length as they were.
    Two [add] calls with the same id, the second with payload [d'], leave
    exactly one entry with that id: it holds [d'] and sits where the
    first call put or found it. *)
Theorem add_existing_replaces_in_place l i :
  unique_ids l →
  (∀ k e d, l !! k = Some e → Queued.id e = i →
     ∃ l', call_yields l (Add i d) l'
           ∧ l' !! k = Some (Queued.mk i d)
           ∧ length l' = length l
           ∧ ∀ j, j ≠ k → l' !! j = l !! j)
  ∧ (∀ d d', ∃ k l1 l2,
       call_yields l (Add i d) l1
       ∧ l1 !! k = Some (Queued.mk i d)
       ∧ call_yields l1 (Add i d') l2
       ∧ l2 !! k = Some (Queued.mk i d')
       ∧ length l2 = length l1
       ∧ (∀ j, j ≠ k → l2 !! j = l1 !! j)
       ∧ (∀ j e, l2 !! j = Some e → Queued.id e = i → j = k)).
Proof.
  intros Hu.
  assert (∀ l0 k e d, unique_ids l0 → l0 !! k = Some e → Queued.id e = i →
            contents_after l0 (Add i d) = <[k:=Queued.mk i d]> l0) as Hin.
  { intros l0 k e d Hu0 Hk He. by apply upsert_present with e. }
  split.
  - intros k e d Hk He. exists (<[k:=Queued.mk i d]> l).
    rewrite <- (Hin l k e d) by done. split_and!.
    + apply call_yields_contents.
    + rewrite (Hin l k e d) by done.
      apply list_lookup_insert_eq. by eapply lookup_lt_Some.
    + rewrite (Hin l k e d) by done. apply length_insert.
    + intros j Hj. rewrite (Hin l k e d) by done.
      by apply list_lookup_insert_ne.
  - intros d d'.
    set (l1 := contents_after l (Add i d)).
    assert (unique_ids l1) as Hu1 by by apply contents_after_unique.
    assert (∃ k, l1 !! k = Some (Queued.mk i d)) as [k Hk].
    { subst l1. cbn. destruct (decide (i ∈ Queued.id <$> l)) as [Hi|Hi].
      - destruct (id_present _ _ Hi) as (k & e & Hk & He). exists k.
        rewrite (upsert_present i d l k e) by done.
        apply list_lookup_insert_eq. by eapply lookup_lt_Some.
      - exists (length l). rewrite upsert_absent by done.
        by rewrite lookup_app_r, Nat.sub_diag by lia. }
    assert (k < length l1)%nat as Hlt by by eapply lookup_lt_Some.
    exists k, l1, (<[k:=Queued.mk i d']> l1).
    rewrite <- (Hin l1 k (Queued.mk i d) d') by done. split_and!.
    + apply call_yields_contents.
    + done.
    + apply call_yields_contents.
    + rewrite (Hin l1 k (Queued.mk i d) d') by done.
      by apply list_lookup_insert_eq.
    + rewrite (Hin l1 k (Queued.mk i d) d') by done. apply length_insert.
    + intros j Hj. rewrite (Hin l1 k (Queued.mk i d) d') by done.
      by apply list_lookup_insert_ne.
    + intros j e Hj He.
      assert (unique_ids (contents_after l1 (Add i d'))) as Hu2
        by by apply contents_after_unique.
      apply (unique_ids_lookup _ j k e (Queued.mk i d') Hu2 Hj); [|done].
      rewrite (Hin l1 k (Queued.mk i d) d') by done.
      by apply list_lookup_insert_eq.
Qed.

Lemma adds_append (entries : array (string * Notification)) l :
  NoDup ((Queued.id <$> l) ++ entries.*1) →
  foldl contents_after l ((λ p, Add p.1 p.2) <$> entries)
  = l ++ ((λ p, Queued.mk p.1 p.2) <$> entries).
Proof.
  revert l. induction entries as [|[i d] entries IH]; intros l Hnd.
  - cbn. by rewrite app_nil_r.
  - cbn [fmap list_fmap foldl contents_after fst snd].
    apply NoDup_app in Hnd as (Hl & Hdisj & Hent).
    rewrite upsert_absent.
    2:{ intros Hi. apply (Hdisj i Hi). cbn. left. }
    rewrite IH.
    + by rewrite <- app_assoc.
    + rewrite fmap_app. cbn. rewrite <- app_assoc. cbn.
      apply NoDup_app. split_and!; [done| |done].
      intros x Hx. apply (Hdisj x Hx).
Qed.

(** C3. [add] calls with pairwise distinct ids on a new queue leave the
    entries in call order; a further [add] of the id of the [k]-th call
    replaces the entry at position [k] and moves nothing. *)
Theorem adds_keep_call_order (entries : array (string * Notification)) :
  NoDup entries.*1 →
  let adds := (λ p, Add p.1 p.2) <$> entries in
  let l := (λ p, Queued.mk p.1 p.2) <$> entries in
  session_yields adds l
  ∧ ∀ k i d d', entries !! k = Some (i, d) →
      call_yields l (Add i d') (<[k:=Queued.mk i d']> l)
      ∧ session_yields (adds ++ [Add i d']) (<[k:=Queued.mk i d']> l).
Proof.
  intros Hnd adds l.
  assert (foldl contents_after [] adds = l) as Hl.
  { subst adds l. by rewrite adds_append. }
  split.
  - rewrite <- Hl. apply session_yields_contents.
  - intros k i d d' Hk.
    assert (contents_after l (Add i d') = <[k:=Queued.mk i d']> l) as Hadd.
    { apply upsert_present with (Queued.mk i d); [|subst l|done].
      - unfold unique_ids. subst l. rewrite <- list_fmap_compose.
        exact Hnd.
      - by rewrite list_lookup_fmap, Hk. }
    rewrite <- Hadd. split.
    + apply call_yields_contents.
    + replace (contents_after l (Add i d'))
        with (foldl contents_after [] (adds ++ [Add i d'])).
      * apply session_yields_contents.
      * by rewrite foldl_app, Hl.
Qed.


(** The object returned by one render keeps the [list] of that render:
    after [add] it still shows the old list, and the object returned by
    the next render shows the new one. *)
Remark live_list_is_a_snapshot i d :
  let '(queue, h) := Live.useNotificationQueue None in
  let h' := Live.add i d h in
  Live.list queue = []
  ∧ Live.list (Live.useNotificationQueue (Some h')).1 = [Queued.mk i d].
Proof. done. Qed.

(** C5. On a queue (at most one entry per id) holding an entry with id
    [i] at position [k], [remove(i)] deletes that entry and nothing else:
    the entries before and after position [k] remain, in order. *)
Theorem remove_present_deletes_one l i k e :
  unique_ids l → l !! k = Some e → Queued.id e = i →
  call_yields l (Remove i) (take k l ++ drop (S k) l).
Proof.
  intros Hu Hk He. rewrite <- delete_take_drop.
  rewrite <- (without_present i l k e) by done.
  apply (call_yields_contents l (Remove i)).
Qed.

(** C6. On a queue with no entry of id [i], [remove(i)] succeeds and
    leaves the list as it was. *)
Theorem remove_absent_noop l i :
  i ∉ Queued.id <$> l → call_yields l (Remove i) l.
Proof.
  intros Hi. rewrite <- (without_absent i l Hi) at 2.
  apply (call_yields_contents l (Remove i)).
Qed.

(** C7. Whatever the queue holds, [removeAll()] leaves an empty list. *)
Theorem removeAll_empties l :
  ∃ l', call_yields l RemoveAll l' ∧ length l' = 0%nat.
Proof.
  exists []. split; [|done]. apply (call_yields_contents l RemoveAll).
Qed.

(** C8. [add(i, d)] on a new queue yields the list [[{id: i, data: d}]]. *)
Theorem add_on_empty i d :
  session_yields [Add i d] [Queued.mk i d].
Proof. apply (session_yields_contents [Add i d]). Qed.


(** C10. On a queue with no entry of id [i], [add(i, d)] appends the
    entry and a following [remove(i)] restores the list exactly. *)
Theorem add_then_remove_restores l i d :
  i ∉ Queued.id <$> l →
  call_yields l (Add i d) (l ++ [Queued.mk i d])
  ∧ call_yields (l ++ [Queued.mk i d]) (Remove i) l.
Proof.
  intros Hi. split.
  - rewrite <- (upsert_absent i d l Hi).
    apply (call_yields_contents l (Add i d)).
  - replace l with (without i (l ++ [Queued.mk i d])) at 2.
    + apply (call_yields_contents _ (Remove i)).
    + unfold without, Array.filter. rewrite filter_app.
      rewrite filter_cons_False, filter_nil, app_nil_r.
      * by apply without_absent.
      * intros H%strict_ne_spec. done.
Qed.
End Contract.


(** * The contract at a concrete queue *)

Lemma example_list_unique : unique_ids example_list.
Proof. apply (bool_decide_unpack _). reflexivity. Qed.

Lemma example_list_no_c : "c" ∉ Queued.id <$> example_list.
Proof. apply (bool_decide_unpack _). reflexivity. Qed.

Lemma unique_ids_invariant_witness :
  unique_ids example_list
  ∧ (∃ l', mock_list_after (Mock.add example_queue "a" 3%nat)
             example_queue example_store = Some l'
           ∧ unique_ids l')
  ∧ unique_ids (rendered_list (Live.add "a" 3%nat example_hook)).
Proof.
  destruct (@unique_ids_invariant nat) as (_ & _ & Hmock & Hlive).
  split_and!.
  - exact example_list_unique.
  - apply (Hmock example_queue example_store example_list (Add "a" 3%nat));
      [reflexivity|exact example_list_unique].
  - apply (Hlive example_hook (Add "a" 3%nat)). exact example_list_unique.
Defined.

Lemma add_existing_replaces_in_place_witness :
  unique_ids example_list
  ∧ ∃ l', call_yields example_list (Add "b" 7%nat) l'
          ∧ l' !! 1%nat = Some (Queued.mk "b" 7%nat)
          ∧ length l' = length example_list
          ∧ ∀ j, j ≠ 1%nat → l' !! j = example_list !! j.
Proof.
  split; [exact example_list_unique|].
  apply (proj1 (add_existing_replaces_in_place example_list "b"
                  example_list_unique) 1%nat (Queued.mk "b" 2%nat) 7%nat);
    reflexivity.
Defined.

Lemma adds_keep_call_order_witness :
  NoDup [("a", 1%nat); ("b", 2%nat)].*1
  ∧ session_yields [Add "a" 1%nat; Add "b" 2%nat] example_list
  ∧ call_yields example_list (Add "a" 9%nat)
      [Queued.mk "a" 9%nat; Queued.mk "b" 2%nat].
Proof.
  assert (NoDup [("a", 1%nat); ("b", 2%nat)].*1) as Hnd
    by (apply (bool_decide_unpack _); reflexivity).
  split; [exact Hnd|].
  destruct (adds_keep_call_order [("a", 1%nat); ("b", 2%nat)] Hnd)
    as [Hsession Hagain].
  split; [exact Hsession|].
  exact (proj1 (Hagain 0%nat "a" 1%nat 9%nat eq_refl)).
Defined.

Lemma remove_present_deletes_one_witness :
  unique_ids example_list
  ∧ call_yields example_list (Remove "a") [Queued.mk "b" 2%nat].
Proof.
  split; [exact example_list_unique|].
  apply (remove_present_deletes_one example_list "a" 0%nat
           (Queued.mk "a" 1%nat) example_list_unique); reflexivity.
Defined.

Lemma remove_absent_noop_witness :
  ("c" ∉ Queued.id <$> example_list)
  ∧ call_yields example_list (Remove "c") example_list.
Proof.
  split; [exact example_list_no_c|].
  apply (remove_absent_noop example_list "c" example_list_no_c).
Defined.

Lemma removeAll_empties_witness :
  ∃ l', mock_list_after (Mock.removeAll example_queue)
          example_queue example_store = Some l'
        ∧ rendered_list (Live.removeAll example_hook) = l'
        ∧ length l' = 0%nat.
Proof.
  destruct (removeAll_empties example_list) as (l' & [Hmock Hlive] & Hlen).
  exists l'. split_and!.
  - apply (Hmock example_queue example_store). reflexivity.
  - apply (Hlive example_hook). reflexivity.
  - exact Hlen.
Defined.

Lemma add_on_empty_witness :
  fst <$> mock_session [Add "a" 1%nat] ∅ = Some [Queued.mk "a" 1%nat]
  ∧ live_session [Render; Invoke (Add "a" 1%nat); Render]
    = [Queued.mk "a" 1%nat].
Proof.
  destruct (add_on_empty "a" 1%nat) as [Hmock Hlive].
  split.
  - apply (Hmock ∅).
  - apply (Hlive [Render; Invoke (Add "a" 1%nat); Render]). reflexivity.
Defined.


Lemma add_then_remove_restores_witness :
  ("c" ∉ Queued.id <$> example_list)
  ∧ call_yields example_list (Add "c" 3%nat)
      (example_list ++ [Queued.mk "c" 3%nat])
  ∧ call_yields (example_list ++ [Queued.mk "c" 3%nat]) (Remove "c")
      example_list.
Proof.
  split; [exact example_list_no_c|].
  apply (add_then_remove_restores example_list "c" 3%nat example_list_no_c).
Defined.

(** * Further properties of the queue *)

(** ** The contents, entry by entry *)
Section Algebra.
Context {Notification : Type}.
Implicit Types (l : array (Queued Notification)) (e : Queued Notification).
Implicit Types (i j : string) (d : Notification) (k : nat).

Lemma upsert_nil i d : upsert i d [] = [Queued.mk i d].
Proof. done. Qed.

Lemma strict_eq_refl i : strict_eq i i = true.
Proof. by apply bool_decide_eq_true_2. Qed.

Lemma strict_eq_ne_false i j : i ≠ j → strict_eq i j = false.
Proof. intros. by apply bool_decide_eq_false_2. Qed.

Lemma upsert_cons i d e l :
  upsert i d (e :: l)
  = if strict_eq (Queued.id e) i then Queued.mk i d :: l
    else e :: upsert i d l.
Proof.
  unfold upsert, Array.slice, Array.findIndex.
  cbn [Array.findIndex_from]. destruct (strict_eq (Queued.id e) i) eqn:He.
  - apply (splice_replace (e :: l) 0). cbn. lia.
  - rewrite !findIndex_from_find.
    destruct (list_find _ l) as [[n y]|] eqn:Hfind.
    + apply list_find_Some in Hfind as (Hn%lookup_lt_Some & _).
      rewrite !(proj2 (Z.gtb_lt _ _)) by lia.
      replace (0 + 1 + Z.of_nat n) with (Z.of_nat (S n)) by lia.
      replace (0 + Z.of_nat n) with (Z.of_nat n) by lia.
      rewrite (splice_replace (e :: l) (S n)) by (cbn; lia).
      by rewrite (splice_replace l n).
    + done.
Qed.

Lemma without_cons i e l :
  without i (e :: l)
  = if strict_eq (Queued.id e) i then without i l else e :: without i l.
Proof.
  unfold without, Array.filter, strict_ne. rewrite filter_cons.
  destruct (strict_eq (Queued.id e) i); by destruct (decide _).
Qed.

Lemma upsert_upsert i d d' l : upsert i d' (upsert i d l) = upsert i d' l.
Proof.
  induction l as [|e l IH].
  - rewrite !upsert_nil, upsert_cons. cbn. by rewrite strict_eq_refl.
  - rewrite !upsert_cons. destruct (strict_eq (Queued.id e) i) eqn:He.
    + rewrite upsert_cons. cbn. by rewrite strict_eq_refl.
    + by rewrite upsert_cons, He, IH.
Qed.

Lemma without_without i j l :
  without i (without j l) = without j (without i l).
Proof.
  induction l as [|e l IH]; [done|].
  rewrite !without_cons.
  destruct (strict_eq (Queued.id e) j) eqn:Hj,
    (strict_eq (Queued.id e) i) eqn:Hi;
    rewrite ?without_cons, ?Hi, ?Hj, ?IH; done.
Qed.

Lemma without_idemp i l : without i (without i l) = without i l.
Proof. apply without_absent, without_gone. Qed.

Lemma without_upsert i d l : without i (upsert i d l) = without i l.
Proof.
  pose proof (strict_eq_refl i) as Hii.
  induction l as [|e l IH].
  - rewrite upsert_nil. by rewrite without_cons; cbn; rewrite Hii.
  - rewrite upsert_cons, (without_cons i e).
    destruct (strict_eq (Queued.id e) i) eqn:He.
    + by rewrite without_cons; cbn; rewrite Hii.
    + by rewrite without_cons, He, IH.
Qed.

Lemma upsert_without i d l :
  upsert i d (without i l) = without i l ++ [Queued.mk i d].
Proof. apply upsert_absent, without_gone. Qed.

Lemma upsert_without_ne i j d l :
  i ≠ j → upsert i d (without j l) = without j (upsert i d l).
Proof.
  intros Hij. induction l as [|e l IH].
  - change (upsert i d [] = without j (upsert i d [])).
    rewrite upsert_nil, without_cons. cbn. by rewrite strict_eq_ne_false.
  - rewrite upsert_cons, (without_cons j e).
    destruct (strict_eq (Queued.id e) j) eqn:Hj.
    + apply bool_decide_eq_true_1 in Hj.
      rewrite (strict_eq_ne_false (Queued.id e) i) by congruence.
      rewrite without_cons.
      by rewrite (bool_decide_eq_true_2 _ Hj : strict_eq _ _ = true).
    + rewrite upsert_cons. destruct (strict_eq (Queued.id e) i) eqn:Hi.
      * rewrite without_cons. cbn. by rewrite strict_eq_ne_false.
      * by rewrite without_cons, Hj, IH.
Qed.

Lemma upsert_comm i j d d' l :
  i ≠ j → i ∈ Queued.id <$> l ∨ j ∈ Queued.id <$> l →
  upsert i d (upsert j d' l) = upsert j d' (upsert i d l).
Proof.
  intros Hij. induction l as [|e l IH]; intros Hin.
  - destruct Hin as [H|H]; by apply elem_of_nil in H.
  - rewrite (upsert_cons j), (upsert_cons i d e).
    destruct (strict_eq (Queued.id e) j) eqn:Hj,
      (strict_eq (Queued.id e) i) eqn:Hi.
    + apply bool_decide_eq_true_1 in Hj, Hi. congruence.
    + rewrite !upsert_cons, Hj. cbn. by rewrite strict_eq_ne_false.
    + rewrite !upsert_cons, Hi. cbn. by rewrite strict_eq_ne_false.
    + rewrite !upsert_cons, Hi, Hj. f_equal. apply IH.
      apply bool_decide_eq_false_1 in Hj, Hi.
      rewrite fmap_cons, !elem_of_cons in Hin.
      destruct Hin as [[?|?]|[?|?]]; [congruence|by left|congruence|by right].
Qed.

Lemma upsert_not_comm i j d d' l :
  i ≠ j → i ∉ Queued.id <$> l → j ∉ Queued.id <$> l →
  upsert i d (upsert j d' l) ≠ upsert j d' (upsert i d l).
Proof.
  intros Hij Hi Hj.
  rewrite (upsert_absent j d' l Hj), (upsert_absent i d l Hi).
  rewrite !upsert_absent.
  - rewrite <- !app_assoc. intros H%app_inv_head. cbn in H. congruence.
  - rewrite fmap_app, elem_of_app.
    intros [?|?%list_elem_of_singleton]; done.
  - rewrite fmap_app, elem_of_app.
    intros [?|?%list_elem_of_singleton]; done.
Qed.

Lemma ids_upsert i d l :
  Queued.id <$> upsert i d l
  = if decide (i ∈ Queued.id <$> l) then Queued.id <$> l
    else (Queued.id <$> l) ++ [i].
Proof.
  induction l as [|e l IH].
  - rewrite upsert_nil. by rewrite decide_False by apply not_elem_of_nil.
  - rewrite upsert_cons. destruct (strict_eq (Queued.id e) i) eqn:He.
    + apply bool_decide_eq_true_1 in He.
      rewrite decide_True by (rewrite fmap_cons, He; apply list_elem_of_here).
      by rewrite !fmap_cons, He.
    + apply bool_decide_eq_false_1 in He. rewrite fmap_cons, IH.
      destruct (decide (i ∈ Queued.id <$> l)).
      * by rewrite decide_True by (rewrite fmap_cons; by apply list_elem_of_further).
      * rewrite decide_False; [done|].
        rewrite fmap_cons, elem_of_cons. by intros [?|?].
Qed.


Lemma elem_of_upsert i d e l :
  unique_ids l →
  e ∈ upsert i d l ↔ e = Queued.mk i d ∨ (e ∈ l ∧ Queued.id e ≠ i).
Proof.
  induction l as [|e' l IH]; intros Hu.
  - rewrite upsert_nil, list_elem_of_singleton.
    split; [by left|]. intros [?|[[]%elem_of_nil _]]; done.
  - apply NoDup_cons in Hu as [Hnotin Hu]. rewrite upsert_cons.
    destruct (strict_eq (Queued.id e') i) eqn:He.
    + apply bool_decide_eq_true_1 in He. rewrite !elem_of_cons. split.
      * intros [->|Hin]; [by left|]. right. split; [by right|].
        intros Hi. apply Hnotin. rewrite He, <- Hi.
        by apply list_elem_of_fmap_2.
      * intros [->|[[->|Hin] Hne]]; [by left|done|by right].
    + apply bool_decide_eq_false_1 in He.
      rewrite !elem_of_cons, (IH Hu). split.
      * intros [->|[->|[Hin Hne]]];
          [right; split; [by left|done]|by left|right; split; [by right|done]].
      * intros [->|[[->|Hin] Hne]]; [right; by left|by left|right; right; done].
Qed.
End Algebra.

(** ** Sequences of calls follow [contents_after] *)
Section SequenceFacts.
Context {Notification : Type}.
Implicit Types (l : array (Queued Notification)).
Implicit Types (cs : array (@Call Notification)).

Lemma mock_list_after_calls q σ l cs :
  mock_list q σ = Some l →
  mock_list_after (mock_calls q cs) q σ = Some (foldl contents_after l cs).
Proof.
  intros Hl%mock_list_Some. unfold mock_list_after.
  rewrite bind_run, (mock_calls_run q cs σ l Hl).
  apply mock_list_Some, lookup_insert_eq.
Qed.

Lemma calls_yield_contents l cs :
  calls_yield l cs (foldl contents_after l cs).
Proof.
  split.
  - intros q σ Hl. by apply mock_list_after_calls.
  - intros h es <- <-. apply rendered_list_events.
Qed.

Lemma calls_of_invoke cs : calls_of (Invoke <$> cs) = cs.
Proof. induction cs as [|c cs IH]; [done|]. cbn. by f_equal. Qed.

Lemma calls_yield_inv l cs l' :
  calls_yield l cs l' → l' = foldl contents_after l cs.
Proof.
  intros [_ Hlive].
  pose (h := {| React.memoizedState := l; React.pending := [] |}
             : Live.Hook Notification).
  rewrite <- (Hlive h (Invoke <$> cs) eq_refl (calls_of_invoke cs)).
  by rewrite rendered_list_events, calls_of_invoke.
Qed.

Lemma same_effect_contents l cs cs' :
  same_effect l cs cs'
  ↔ foldl contents_after l cs = foldl contents_after l cs'.
Proof.
  split.
  - intros (l' & H1%calls_yield_inv & H2%calls_yield_inv). congruence.
  - intros Heq. exists (foldl contents_after l cs). split.
    + apply calls_yield_contents.
    + rewrite Heq. apply calls_yield_contents.
Qed.
End SequenceFacts.

(** ** How the calls compose *)
Section Composition.
Context {Notification : Type}.
Implicit Types (l : array (Queued Notification)) (e : Queued Notification).
Implicit Types (i j : string) (d : Notification) (k : nat).

(** X1. The last [add] of an id wins: on any list, [add(i, d)] followed by
    [add(i, d')] leaves what [add(i, d')] alone leaves, in both
    realizations. *)
Theorem add_last_write_wins l i d d' :
  same_effect l [Add i d; Add i d'] [Add i d'].
Proof. apply same_effect_contents. cbn. apply upsert_upsert. Qed.

(** X2. [remove] is idempotent and two [remove] calls commute, on any
    list and in both realizations. *)
Theorem remove_idempotent_and_commutes l i j :
  same_effect l [Remove i; Remove i] [Remove i]
  ∧ same_effect l [Remove i; Remove j] [Remove j; Remove i].
Proof.
  split; apply same_effect_contents; cbn.
  - apply without_idemp.
  - apply without_without.
Qed.

(** X3. On any list, with or without an entry of id [i], [add(i, d)]
    followed by [remove(i)] leaves what [remove(i)] alone leaves. *)
Theorem add_then_remove_is_remove l i d :
  same_effect l [Add i d; Remove i] [Remove i].
Proof. apply same_effect_contents. cbn. apply without_upsert. Qed.

(** X4. [remove(i)] followed by [add(i, d)] puts the entry last: the list
    is what [remove(i)] leaves, with [{id: i, data: d}] appended, so an
    entry that is removed and added again loses its position. *)
Theorem remove_then_add_appends l i d :
  ∃ l1, call_yields l (Remove i) l1
        ∧ calls_yield l [Remove i; Add i d] (l1 ++ [Queued.mk i d]).
Proof.
  exists (without i l). split.
  - apply (call_yields_contents l (Remove i)).
  - rewrite <- upsert_without. apply (calls_yield_contents l [Remove i; Add i d]).
Qed.

(** X5. [add(i, d)] and [remove(j)] commute when [i] and [j] differ. *)
Theorem add_commutes_with_remove_of_other_id l i j d :
  i ≠ j → same_effect l [Add i d; Remove j] [Remove j; Add i d].
Proof.
  intros Hij. apply same_effect_contents. cbn. symmetry.
  by apply upsert_without_ne.
Qed.

(** X6. Two [add] calls with different ids commute exactly when at least
    one of the two ids is already in the list: two new ids are appended in
    call order. *)
Theorem adds_commute_iff_one_present l i j d d' :
  i ≠ j →
  same_effect l [Add i d; Add j d'] [Add j d'; Add i d]
  ↔ i ∈ Queued.id <$> l ∨ j ∈ Queued.id <$> l.
Proof.
  intros Hij. rewrite same_effect_contents. cbn. split.
  - intros Heq.
    destruct (decide (i ∈ Queued.id <$> l)) as [|Hi]; [by left|].
    destruct (decide (j ∈ Queued.id <$> l)) as [|Hj]; [by right|].
    by destruct (upsert_not_comm j i d' d l).
  - intros Hin. apply upsert_comm; [done|]. tauto.
Qed.

(** X7. [add] never reorders: on any list, the sequence of ids after
    [add(i, d)] is the sequence before if [i] was in it, and the sequence
    before followed by [i] otherwise; the length grows by one exactly in
    the second case. *)
Theorem add_keeps_id_order l i d :
  ∃ l', call_yields l (Add i d) l'
        ∧ Queued.id <$> l'
          = (if decide (i ∈ Queued.id <$> l) then Queued.id <$> l
             else (Queued.id <$> l) ++ [i])
        ∧ length l'
          = (if decide (i ∈ Queued.id <$> l) then length l
             else S (length l)).
Proof.
  exists (upsert i d l). split_and!.
  - apply (call_yields_contents l (Add i d)).
  - apply ids_upsert.
  - rewrite <- (length_fmap Queued.id (upsert i d l)), ids_upsert.
    destruct (decide _).
    + by rewrite length_fmap.
    + rewrite length_app, length_fmap. cbn. lia.
Qed.


(** X9. On a list with at most one entry per id, the entries after
    [add(i, d)] are [{id: i, data: d}] and the entries of other ids that
    were there before: nothing else appears and nothing else is lost. *)
Theorem add_changes_one_id l i d :
  unique_ids l →
  ∃ l', call_yields l (Add i d) l'
        ∧ ∀ e, e ∈ l' ↔ e = Queued.mk i d ∨ (e ∈ l ∧ Queued.id e ≠ i).
Proof.
  intros Hu. exists (upsert i d l). split.
  - apply (call_yields_contents l (Add i d)).
  - intros e. by apply elem_of_upsert.
Qed.

(** X10. On a list with several entries of id [i], [add(i, d)] rewrites
    the first of them, at position [k], and leaves the later ones. *)
Theorem add_rewrites_first_match l i d k e :
  l !! k = Some e → Queued.id e = i →
  (∀ n y, l !! n = Some y → (n < k)%nat → Queued.id y ≠ i) →
  call_yields l (Add i d) (<[k:=Queued.mk i d]> l).
Proof.
  intros Hk He Hfirst. rewrite <- (upsert_first i d l k e) by done.
  apply (call_yields_contents l (Add i d)).
Qed.

(** X11. The two realizations stay in step from any common list, not only
    from the empty one: if the mock queue's [list] equals what the live
    component would render, then after the same calls, with any renders
    between them, it equals what the live component renders next. *)
Theorem mock_live_in_step q σ (h : Live.Hook Notification) es :
  mock_list q σ = Some (rendered_list h) →
  mock_list_after (mock_calls q (calls_of es)) q σ
  = Some (rendered_list (foldl live_event h es)).
Proof.
  intros Hl. rewrite rendered_list_events. by apply mock_list_after_calls.
Qed.
End Composition.

(** ** Mock queues do not share state *)
Section MockIsolation.
Context {Notification : Type}.
Implicit Types (σ : Heap.Store Notification) (q : Mock.Queue).
Implicit Types (l : array (Queued Notification)).


(** X13. [createMockNotificationQueue] always completes and returns a
    queue on a new array: its [list] is empty, and every queue that
    existed before has another array and keeps its list. *)
Theorem mock_queue_is_new σ :
  ∃ q σ', Mock.createMockNotificationQueue σ = Some (q, σ')
          ∧ mock_list q σ = None
          ∧ mock_list q σ' = Some []
          ∧ ∀ q' l, mock_list q' σ = Some l →
              Mock.list q' ≠ Mock.list q ∧ mock_list q' σ' = Some l.
Proof.
  destruct (mock_create_run σ) as (q & Hq & Hnew).
  exists q, (<[Mock.list q:=[]]> σ). split_and!.
  - exact Hq.
  - unfold mock_list, Mock.read_list, Heap.load. by rewrite Hnew.
  - apply mock_list_Some, lookup_insert_eq.
  - intros q' l Hl%mock_list_Some.
    assert (Mock.list q' ≠ Mock.list q) as Hne by congruence.
    split; [done|]. apply mock_list_Some.
    by rewrite lookup_insert_ne by congruence.
Qed.

(** X14. [MockNotificationQueueProvider] without a [queue] property makes
    a new queue at each render: after any calls on the queue that the
    children of one render got from [useNotifications], the children of
    the next render get another queue, whose list is empty, while the
    first queue still holds what was added. *)
Theorem mock_provider_makes_a_queue_per_render scope σ
    (cs : array (@Call Notification)) :
  ∃ q1 σ1 σ2 q2 σ3,
    Context.MockNotificationQueueProvider None
      (λ s, mret (Context.useNotifications s)) scope σ
    = Some (Context.Normal (Context.MockQueue q1), σ1)
    ∧ mock_calls q1 cs σ1 = Some ((), σ2)
    ∧ Context.MockNotificationQueueProvider None
        (λ s, mret (Context.useNotifications s)) scope σ2
      = Some (Context.Normal (Context.MockQueue q2), σ3)
    ∧ Mock.list q2 ≠ Mock.list q1
    ∧ mock_list q2 σ3 = Some []
    ∧ mock_list q1 σ3 = Some (foldl contents_after [] cs).
Proof.
  assert (∀ σ0, ∃ q, Context.MockNotificationQueueProvider None
                       (λ s, mret (Context.useNotifications s)) scope σ0
                     = Some (Context.Normal (Context.MockQueue q),
                             <[Mock.list q:=[]]> σ0)
                     ∧ σ0 !! Mock.list q = None) as Hrender.
  { intros σ0. destruct (mock_create_run σ0) as (q & Hq & Hnew).
    exists q. split; [|done].
    unfold Context.MockNotificationQueueProvider.
    by rewrite bind_run, bind_run, Hq. }
  destruct (Hrender σ) as (q1 & Hr1 & _).
  set (σ2 := <[Mock.list q1:=foldl contents_after [] cs]> σ).
  destruct (Hrender σ2) as (q2 & Hr2 & Hnew2).
  assert (Mock.list q2 ≠ Mock.list q1) as Hne.
  { intros Heq. rewrite Heq in Hnew2. unfold σ2 in Hnew2.
    by rewrite lookup_insert_eq in Hnew2. }
  exists q1, (<[Mock.list q1:=[]]> σ), σ2, q2, (<[Mock.list q2:=[]]> σ2).
  split_and!.
  - exact Hr1.
  - rewrite (mock_calls_run q1 cs _ []) by apply lookup_insert_eq.
    unfold σ2. by rewrite insert_insert_eq.
  - exact Hr2.
  - exact Hne.
  - apply mock_list_Some, lookup_insert_eq.
  - apply mock_list_Some. rewrite lookup_insert_ne by congruence.
    apply lookup_insert_eq.
Qed.
End MockIsolation.

(** ** Contexts made by different calls of [createNotificationContext] *)
Section FactoryFacts.
Context {Notification : Type}.
Implicit Types (self : Factory.NotificationContext).
Implicit Types (scope : @Factory.Scope Notification).

Lemma providers_of_app context scope scope' :
  Factory.providers_of context (scope ++ scope')
  = Factory.providers_of context scope ++ Factory.providers_of context scope'.
Proof. apply omap_app. Qed.

Lemma providers_of_others context scope :
  Forall (λ p, p.1 ≠ context) scope → Factory.providers_of context scope = [].
Proof.
  induction 1 as [|[c v] scope Hc _ IH]; [done|].
  unfold Factory.providers_of. cbn. rewrite decide_False by done. exact IH.
Qed.

(** X15. Two calls of [createNotificationContext] give two contexts: the
    provider of the first is invisible to [useNotifications] of the second,
    which returns what it would return without that provider, and so
    throws the missing-provider error when nothing else encloses it. *)
Theorem contexts_are_separate created :
  let '(first, created') := Factory.createNotificationContext created in
  let '(second, _) := Factory.createNotificationContext created' in
  Factory.NotificationQueueContext first
    ≠ Factory.NotificationQueueContext second
  ∧ (∀ queue scope (σ : Heap.Store Notification),
       Factory.NotificationQueueProvider first queue
         (λ s, mret (Factory.useNotifications second s)) scope σ
       = Some (Factory.useNotifications second scope, σ))
  ∧ (∀ queue (σ : Heap.Store Notification),
       Factory.NotificationQueueProvider first queue
         (λ s, mret (Factory.useNotifications second s)) [] σ
       = Some (Context.Throw
                 {| Context.message := "Missing <NotificationQueueProvider>" |},
               σ))
  ∧ (∀ queue scope (σ : Heap.Store Notification),
       Factory.NotificationQueueProvider first queue
         (λ s, mret (Factory.useNotifications first s)) scope σ
       = Some (Context.Normal queue, σ)).
Proof.
  cbn. split_and!.
  - lia.
  - intros queue scope σ.
    unfold Factory.NotificationQueueProvider, Factory.Provider,
      Factory.useNotifications, Factory.providers_of.
    cbn. rewrite decide_False by lia. done.
  - intros queue σ.
    unfold Factory.NotificationQueueProvider, Factory.Provider,
      Factory.useNotifications, Factory.providers_of.
    cbn. rewrite decide_False by lia. done.
  - intros queue scope σ.
    unfold Factory.NotificationQueueProvider, Factory.Provider,
      Factory.useNotifications, Factory.providers_of.
    cbn. rewrite decide_True by done. done.
Qed.

(** X16. [useNotifications] answers from the nearest enclosing provider of
    its own context: providers of other contexts in between are skipped,
    providers further out are not consulted, and it throws the
    missing-provider error exactly when that nearest value is [null]. *)
Theorem nearest_own_provider_decides self (inner outer : Factory.Scope)
    (value : @Context.Value Notification) :
  Forall (λ p, p.1 ≠ Factory.NotificationQueueContext self) inner →
  Factory.useNotifications self
    (inner ++ (Factory.NotificationQueueContext self, value) :: outer)
  = match value with
    | Context.object queue => Context.Normal queue
    | Context.null =>
        Context.Throw
          {| Context.message := "Missing <NotificationQueueProvider>" |}
    end.
Proof.
  intros Hinner. unfold Factory.useNotifications.
  rewrite providers_of_app, (providers_of_others _ inner Hinner).
  unfold Factory.providers_of. cbn. rewrite decide_True by done.
  by destruct value.
Qed.
End FactoryFacts.

(** * The further properties at a concrete queue *)

Lemma add_commutes_with_remove_of_other_id_witness :
  "c" ≠ "a"
  ∧ same_effect example_list
      [Add "c" 3%nat; Remove "a"] [Remove "a"; Add "c" 3%nat].
Proof.
  assert ("c" ≠ "a") as Hne by discriminate.
  split; [exact Hne|].
  apply (add_commutes_with_remove_of_other_id example_list "c" "a" 3%nat Hne).
Defined.

Lemma adds_commute_iff_one_present_witness :
  "a" ≠ "c"
  ∧ ("a" ∈ Queued.id <$> example_list)
  ∧ same_effect example_list
      [Add "a" 3%nat; Add "c" 4%nat] [Add "c" 4%nat; Add "a" 3%nat].
Proof.
  assert ("a" ≠ "c") as Hne by discriminate.
  assert ("a" ∈ Queued.id <$> example_list) as Hin
    by (apply (bool_decide_unpack _); reflexivity).
  split_and!; [exact Hne|exact Hin|].
  apply (proj2 (adds_commute_iff_one_present example_list "a" "c"
                  3%nat 4%nat Hne)).
  left. exact Hin.
Defined.

Lemma add_changes_one_id_witness :
  unique_ids example_list
  ∧ ∃ l', call_yields example_list (Add "a" 3%nat) l'
          ∧ ∀ e, e ∈ l' ↔
                 e = Queued.mk "a" 3%nat
                 ∨ (e ∈ example_list ∧ Queued.id e ≠ "a").
Proof.
  split; [exact example_list_unique|].
  apply (add_changes_one_id example_list "a" 3%nat example_list_unique).
Defined.

Lemma add_rewrites_first_match_witness :
  example_duplicates !! 1%nat = Some (Queued.mk "a" 1%nat)
  ∧ call_yields example_duplicates (Add "a" 9%nat)
      [Queued.mk "b" 2%nat; Queued.mk "a" 9%nat; Queued.mk "a" 5%nat].
Proof.
  split; [reflexivity|].
  apply (add_rewrites_first_match example_duplicates "a" 9%nat 1%nat
           (Queued.mk "a" 1%nat)); [reflexivity|reflexivity|].
  intros [|n] y Hy Hlt; [|lia].
  injection Hy as <-. discriminate.
Defined.

Lemma mock_live_in_step_witness :
  mock_list example_queue example_store = Some (rendered_list example_hook)
  ∧ mock_list_after
      (mock_calls example_queue [Add "c" 3%nat; Remove "a"])
      example_queue example_store
    = Some (rendered_list
              (foldl live_event example_hook
                 [Invoke (Add "c" 3%nat); Render; Invoke (Remove "a")])).
Proof.
  split; [reflexivity|].
  apply (mock_live_in_step example_queue example_store example_hook
           [Invoke (Add "c" 3%nat); Render; Invoke (Remove "a")]).
  reflexivity.
Defined.


Lemma mock_queue_is_new_witness :
  mock_list example_queue example_store = Some example_list
  ∧ ∃ q σ', Mock.createMockNotificationQueue example_store = Some (q, σ')
            ∧ mock_list q σ' = Some []
            ∧ Mock.list example_queue ≠ Mock.list q
            ∧ mock_list example_queue σ' = Some example_list.
Proof.
  split; [reflexivity|].
  destruct (mock_queue_is_new example_store)
    as (q & σ' & Hq & _ & Hempty & Hold).
  exists q, σ'. split_and!; [exact Hq|exact Hempty|..].
  - apply (Hold example_queue example_list). reflexivity.
  - apply (Hold example_queue example_list). reflexivity.
Defined.

Lemma nearest_own_provider_decides_witness :
  Forall (λ p : nat * @Context.Value nat, p.1 ≠ 0%nat)
    [(1%nat, Context.object (Context.MockQueue example_queue))]
  ∧ Factory.useNotifications (Notification:=nat)
      {| Factory.NotificationQueueContext := 0%nat |}
      ([(1%nat, Context.object (Context.MockQueue example_queue))]
       ++ (0%nat, Context.null)
       :: [(0%nat, Context.object (Context.MockQueue example_queue))])
    = Context.Throw
        {| Context.message := "Missing <NotificationQueueProvider>" |}.
Proof.
  assert (Forall (λ p : nat * @Context.Value nat, p.1 ≠ 0%nat)
            [(1%nat, Context.object (Context.MockQueue example_queue))])
    as Hinner by (repeat constructor; cbn; lia).
  split; [exact Hinner|].
  apply (nearest_own_provider_decides
           {| Factory.NotificationQueueContext := 0%nat |}
           [(1%nat, Context.object (Context.MockQueue example_queue))]
           [(0%nat, Context.object (Context.MockQueue example_queue))]
           Context.null Hinner).
Defined.
